(** * WordPress mirror: schema, validation and derived-view contracts

    A shallow embedding of [app/models.py]: the field constraints of the
    request schemas (pydantic [Field] declarations), the uniqueness and
    primary-key declarations of the persistent tables, and the contracts
    of the resolver, pagination and cache layers that sit on top of them. *)

From Stdlib Require Import ZArith Lia Ascii String.
From stdpp Require Import gmap strings list sorting.

Local Open Scope Z_scope.
Local Set Warnings "-register-all,-clear-no-such-hyp".

(** ** Regular expressions of [Field(regex=...)]

    The only pattern of the schema is [^(asc|desc)$]: literals, an
    alternation, and both anchors, so a value matches when the whole of it
    does.  Matching is by derivatives. *)

Module Regex.

Inductive re : Type :=
| Void
| Eps
| Chr (c : ascii)
| Cat (r1 r2 : re)
| Alt (r1 r2 : re).

Fixpoint nullable (r : re) : bool :=
  match r with
  | Void => false
  | Eps => true
  | Chr _ => false
  | Cat r1 r2 => nullable r1 && nullable r2
  | Alt r1 r2 => nullable r1 || nullable r2
  end.

Fixpoint deriv (a : ascii) (r : re) : re :=
  match r with
  | Void => Void
  | Eps => Void
  | Chr c => if Ascii.eqb a c then Eps else Void
  | Cat r1 r2 =>
      if nullable r1
      then Alt (Cat (deriv a r1) r2) (deriv a r2)
      else Cat (deriv a r1) r2
  | Alt r1 r2 => Alt (deriv a r1) (deriv a r2)
  end.

(** [^r$]: the whole string is consumed. *)
Fixpoint fullmatch (r : re) (s : string) : bool :=
  match s with
  | EmptyString => nullable r
  | String a s' => fullmatch (deriv a r) s'
  end.

Fixpoint lit (s : string) : re :=
  match s with
  | EmptyString => Eps
  | String a s' => Cat (Chr a) (lit s')
  end.













End Regex.

(** ** Field constraints and validation errors

    A non-table [SQLModel] class validates its keyword arguments against
    the [Field] constraints when it is constructed and raises a
    [ValidationError] listing every offending field, in declaration order.
    Construction is a function of the arguments alone. *)

Module Field.

Inductive ErrorType : Type :=
| missing
| string_too_short
| string_too_long
| string_pattern_mismatch
| greater_than_equal
| less_than_equal.

Record ErrorDetail : Type := { loc : string; type : ErrorType }.

(** What the constructor raises; [errors] is never empty when raised. *)
Record ValidationError : Type := { errors : list ErrorDetail }.

(** [Field(min_length=, max_length=, regex=)] on a [str]. *)
Record Str : Type :=
  { min_length : option nat;
    max_length : option nat;
    regex : option Regex.re }.

(** [Field(ge=, le=)] on an [int]. *)
Record Int : Type := { ge : option Z; le : option Z }.

Definition below (bound : option nat) (n : nat) : bool :=
  match bound with Some b => Nat.ltb n b | None => false end.

Definition above (bound : option nat) (n : nat) : bool :=
  match bound with Some b => Nat.ltb b n | None => false end.

Definition mismatch (pattern : option Regex.re) (v : string) : bool :=
  match pattern with Some r => negb (Regex.fullmatch r v) | None => false end.

Definition check_str (f : Str) (name : string) (v : string) : list ErrorDetail :=
  if below (min_length f) (String.length v)
  then [ {| loc := name; type := string_too_short |} ]
  else if above (max_length f) (String.length v)
  then [ {| loc := name; type := string_too_long |} ]
  else if mismatch (regex f) v
  then [ {| loc := name; type := string_pattern_mismatch |} ]
  else [].

(** [Optional[str]]: [None] passes, a string is checked. *)
Definition check_opt_str (f : Str) (name : string) (v : option string)
  : list ErrorDetail :=
  match v with
  | None => []
  | Some s => check_str f name s
  end.

Definition check_int (f : Int) (name : string) (v : Z) : list ErrorDetail :=
  if match ge f with Some b => v <? b | None => false end
  then [ {| loc := name; type := greater_than_equal |} ]
  else if match le f with Some b => b <? v | None => false end
  then [ {| loc := name; type := less_than_equal |} ]
  else [].

(** A keyword argument with a default: the default is taken unchecked when
    the argument is absent, a supplied value is checked. *)
Definition with_default {A : Type} (check : A -> list ErrorDetail)
    (default : A) (arg : option A) : A * list ErrorDetail :=
  match arg with
  | None => (default, [])
  | Some v => (v, check v)
  end.

(** A required keyword argument. *)
Definition required {A : Type} (check : A -> list ErrorDetail)
    (name : string) (dummy : A) (arg : option A) : A * list ErrorDetail :=
  match arg with
  | None => (dummy, [ {| loc := name; type := missing |} ])
  | Some v => (v, check v)
  end.

Definition raise_or_return {A : Type} (errs : list ErrorDetail) (v : A)
  : ValidationError + A :=
  match errs with
  | [] => inr v
  | _ :: _ => inl {| errors := errs |}
  end.

End Field.

(** ** Request schemas *)

Module SearchRequest.

Record t : Type :=
  { query : string;
    post_type : option string;
    category_slug : option string;
    tag_slug : option string;
    limit : Z;
    offset : Z }.

Definition query_field : Field.Str :=
  {| Field.min_length := Some 1%nat; Field.max_length := Some 255%nat;
     Field.regex := None |}.
Definition post_type_field : Field.Str :=
  {| Field.min_length := None; Field.max_length := Some 50%nat;
     Field.regex := None |}.
Definition category_slug_field : Field.Str :=
  {| Field.min_length := None; Field.max_length := Some 255%nat;
     Field.regex := None |}.
Definition tag_slug_field : Field.Str :=
  {| Field.min_length := None; Field.max_length := Some 255%nat;
     Field.regex := None |}.
Definition limit_field : Field.Int :=
  {| Field.ge := Some 1; Field.le := Some 100 |}.
Definition offset_field : Field.Int :=
  {| Field.ge := Some 0; Field.le := None |}.

(** [SearchRequest(query=..., post_type=..., ...)]; an argument that is
    not supplied is [None]. *)
Definition init (a_query : option string)
    (a_post_type a_category_slug a_tag_slug : option (option string))
    (a_limit a_offset : option Z) : Field.ValidationError + t :=
  let '(q, e1) :=
    Field.required (Field.check_str query_field "query") "query" "" a_query in
  let '(pt, e2) :=
    Field.with_default (Field.check_opt_str post_type_field "post_type")
      (Some "post") a_post_type in
  let '(cs, e3) :=
    Field.with_default (Field.check_opt_str category_slug_field "category_slug")
      None a_category_slug in
  let '(ts, e4) :=
    Field.with_default (Field.check_opt_str tag_slug_field "tag_slug")
      None a_tag_slug in
  let '(l, e5) :=
    Field.with_default (Field.check_int limit_field "limit") 10 a_limit in
  let '(o, e6) :=
    Field.with_default (Field.check_int offset_field "offset") 0 a_offset in
  Field.raise_or_return (e1 ++ e2 ++ e3 ++ e4 ++ e5 ++ e6)
    {| query := q; post_type := pt; category_slug := cs; tag_slug := ts;
       limit := l; offset := o |}.

End SearchRequest.

Module PaginationParams.

Record t : Type :=
  { page : Z;
    per_page : Z;
    order_by : string;
    order : string }.

(** [^(asc|desc)$] *)
Definition order_pattern : Regex.re :=
  Regex.Alt (Regex.lit "asc") (Regex.lit "desc").

Definition page_field : Field.Int :=
  {| Field.ge := Some 1; Field.le := None |}.
Definition per_page_field : Field.Int :=
  {| Field.ge := Some 1; Field.le := Some 100 |}.
Definition order_by_field : Field.Str :=
  {| Field.min_length := None; Field.max_length := Some 50%nat;
     Field.regex := None |}.
Definition order_field : Field.Str :=
  {| Field.min_length := None; Field.max_length := None;
     Field.regex := Some order_pattern |}.

Definition init (a_page a_per_page : option Z)
    (a_order_by a_order : option string) : Field.ValidationError + t :=
  let '(p, e1) :=
    Field.with_default (Field.check_int page_field "page") 1 a_page in
  let '(pp, e2) :=
    Field.with_default (Field.check_int per_page_field "per_page") 10
      a_per_page in
  let '(ob, e3) :=
    Field.with_default (Field.check_str order_by_field "order_by")
      "wp_created_at" a_order_by in
  let '(o, e4) :=
    Field.with_default (Field.check_str order_field "order") "desc" a_order in
  Field.raise_or_return (e1 ++ e2 ++ e3 ++ e4)
    {| page := p; per_page := pp; order_by := ob; order := o |}.

End PaginationParams.

(** [PaginatedResponse]: the six fields of the schema (no constraint). *)
Module PaginatedResponse.

Record t : Type :=
  { total : Z;
    page : Z;
    per_page : Z;
    total_pages : Z;
    has_next : bool;
    has_previous : bool }.

End PaginatedResponse.

(** ** Persistent tables

    A [table=True] class declares a table: its columns, which of them form
    the primary key, which carry [unique=True], and which are
    [Optional].  The store keeps the rows of a table and refuses a write
    that would break a declared key. *)

Module Store.

Inductive ctype : Type := TInt | TStr | TDateTime | TJson | TBool.

Inductive value : Type :=
| VNull
| VInt (z : Z)
| VStr (s : string)
| VDateTime (t : Z)
| VJson (j : string)
| VBool (b : bool).

#[global] Instance value_eq_dec : EqDecision value.
Proof. solve_decision. Defined.

Record Column : Type :=
  { cname : string;
    ctype_of : ctype;
    primary_key : bool;
    unique : bool;
    nullable : bool }.

Record Table : Type := { tablename : string; columns : list Column }.

Definition col (n : string) (ty : ctype) : Column :=
  {| cname := n; ctype_of := ty; primary_key := false; unique := false;
     nullable := false |}.
Definition pk (n : string) (ty : ctype) : Column :=
  {| cname := n; ctype_of := ty; primary_key := true; unique := false;
     nullable := false |}.
Definition uq (n : string) (ty : ctype) : Column :=
  {| cname := n; ctype_of := ty; primary_key := false; unique := true;
     nullable := false |}.
Definition opt (n : string) (ty : ctype) : Column :=
  {| cname := n; ctype_of := ty; primary_key := false; unique := false;
     nullable := true |}.

Definition User : Table :=
  {| tablename := "users";
     columns :=
       [ pk "id" TInt; uq "wp_id" TInt; col "name" TStr; col "email" TStr;
         uq "slug" TStr; col "description" TStr; opt "avatar_url" TStr;
         opt "website_url" TStr; col "created_at" TDateTime;
         col "updated_at" TDateTime ] |}.

Definition Media : Table :=
  {| tablename := "media";
     columns :=
       [ pk "id" TInt; uq "wp_id" TInt; col "title" TStr; col "filename" TStr;
         col "alt_text" TStr; col "caption" TStr; col "description" TStr;
         col "mime_type" TStr; opt "file_size" TInt; opt "width" TInt;
         opt "height" TInt; col "source_url" TStr; col "sizes" TJson;
         col "created_at" TDateTime; col "updated_at" TDateTime ] |}.

Definition Post : Table :=
  {| tablename := "posts";
     columns :=
       [ pk "id" TInt; uq "wp_id" TInt; col "title" TStr; uq "slug" TStr;
         col "content" TStr; col "excerpt" TStr; col "status" TStr;
         col "post_type" TStr; col "comment_count" TInt; col "view_count" TInt;
         opt "meta_title" TStr; opt "meta_description" TStr;
         col "wp_created_at" TDateTime; col "wp_updated_at" TDateTime;
         col "created_at" TDateTime; col "updated_at" TDateTime;
         opt "author_id" TInt; opt "featured_image_id" TInt ] |}.

Definition Page : Table :=
  {| tablename := "pages";
     columns :=
       [ pk "id" TInt; uq "wp_id" TInt; col "title" TStr; uq "slug" TStr;
         col "content" TStr; col "status" TStr; opt "parent_id" TInt;
         col "menu_order" TInt; opt "template" TStr; opt "meta_title" TStr;
         opt "meta_description" TStr; col "wp_created_at" TDateTime;
         col "wp_updated_at" TDateTime; col "created_at" TDateTime;
         col "updated_at" TDateTime; opt "author_id" TInt;
         opt "featured_image_id" TInt ] |}.

Definition CustomPostType : Table :=
  {| tablename := "custom_post_types";
     columns :=
       [ pk "id" TInt; uq "wp_id" TInt; col "post_type" TStr; col "title" TStr;
         col "slug" TStr; col "content" TStr; col "excerpt" TStr;
         col "status" TStr; col "custom_fields" TJson;
         col "wp_created_at" TDateTime; col "wp_updated_at" TDateTime;
         col "created_at" TDateTime; col "updated_at" TDateTime;
         opt "author_id" TInt; opt "featured_image_id" TInt ] |}.

Definition PostCategoryLink : Table :=
  {| tablename := "post_category_links";
     columns := [ pk "post_id" TInt; pk "category_id" TInt ] |}.

Definition PostTagLink : Table :=
  {| tablename := "post_tag_links";
     columns := [ pk "post_id" TInt; pk "tag_id" TInt ] |}.

(** A row gives each column its value. *)
Abbreviation Row := (gmap string value).

Definition has_type (null_ok : bool) (v : value) (ty : ctype) : bool :=
  match v, ty with
  | VNull, _ => null_ok
  | VInt _, TInt => true
  | VStr _, TStr => true
  | VDateTime _, TDateTime => true
  | VJson _, TJson => true
  | VBool _, TBool => true
  | _, _ => false
  end.

Definition row_ok (t : Table) (r : Row) : bool :=
  forallb
    (fun c => match r !! cname c with
              | Some v => has_type (nullable c) v (ctype_of c)
              | None => false
              end)
    (columns t).


Definition pk_cols (t : Table) : list string :=
  cname <$> filter (fun c => primary_key c = true) (columns t).

Definition unique_cols (t : Table) : list string :=
  cname <$> filter (fun c => unique c = true) (columns t).

Definition key (cols : list string) (r : Row) : list (option value) :=
  (fun c => r !! c) <$> cols.

(** Two rows clash when they agree on the whole primary key or on one
    unique column. *)
Definition clashes (t : Table) (r r' : Row) : bool :=
  bool_decide (key (pk_cols t) r = key (pk_cols t) r')
  || existsb (fun c => bool_decide (r !! c = r' !! c)) (unique_cols t).

Inductive Write : Type :=
| Insert (r : Row)
| Delete (k : list (option value))
| Update (k : list (option value)) (r : Row).

Inductive IntegrityError : Type := integrity_error.

Definition others (t : Table) (k : list (option value)) (rows : list Row)
  : list Row :=
  filter (fun r' => key (pk_cols t) r' <> k) rows.

Definition insert_row (t : Table) (r : Row) (rows : list Row)
  : IntegrityError + list Row :=
  if row_ok t r && forallb (fun r' => negb (clashes t r r')) rows
  then inr (r :: rows)
  else inl integrity_error.

(** A write either commits or raises and leaves the table as it was. *)
Definition apply (t : Table) (w : Write) (rows : list Row)
  : IntegrityError + list Row :=
  match w with
  | Insert r => insert_row t r rows
  | Delete k => inr (others t k rows)
  | Update k r =>
      if bool_decide (others t k rows = rows)
      then inr rows
      else insert_row t r (others t k rows)
  end.

Definition step (t : Table) (rows : list Row) (w : Write) : list Row :=
  match apply t w rows with
  | inr rows' => rows'
  | inl _ => rows
  end.

(** The table after a history of writes, from empty. *)
Definition run (t : Table) (ws : list Write) : list Row :=
  foldl (step t) [] ws.

(** [PostCategoryLink(post_id=a, category_id=b)] and
    [PostTagLink(post_id=a, tag_id=b)] as rows. *)
Definition link (ca cb : string) (a b : Z) : Row :=
  <[ca := VInt a]> {[ cb := VInt b ]}.



(** The rows whose column [c] holds [v]. *)
Definition rows_with (c : string) (v : value) (rows : list Row) : list Row :=
  filter (fun r => r !! c = Some v) rows.

(** The edges of a link table between [a] and [b]. *)
Definition edges (ca cb : string) (a b : Z) (rows : list Row) : list Row :=
  filter (fun r => r !! ca = Some (VInt a) /\ r !! cb = Some (VInt b)) rows.

Definition at_most_one_edge (ca cb : string) (rows : list Row) : Prop :=
  forall a b, (length (edges ca cb a b rows) <= 1)%nat.


End Store.

(** ** Pagination sub-contract of the view assembler *)

Module Pagination.

(** Modelled from the spec: the computation of the pagination totals and
    of the page's slice is not in [models.py], which only declares the
    [PaginationParams] and [PaginatedResponse] shapes.  From section 4.3:
    [total_pages = ceil(total / per_page)], [has_next = page < total_pages],
    [has_previous = page > 1], and a page beyond the last is empty. *)
Definition ceil_div (a b : Z) : Z := - ((- a) / b).

(** Modelled from the spec: the items of page [page], the pages being
    consecutive runs of [per_page] items of the ordered result. *)
Definition page_items {A : Type} (items : list A) (page per_page : Z) : list A :=
  take (Z.to_nat per_page) (drop (Z.to_nat ((page - 1) * per_page)) items).

(** Modelled from the spec: the assembled paginated response over the
    ordered list of all matching items. *)
Definition paginate {A : Type} (items : list A) (params : PaginationParams.t)
  : list A * PaginatedResponse.t :=
  let total := Z.of_nat (length items) in
  let page := PaginationParams.page params in
  let per_page := PaginationParams.per_page params in
  let total_pages := ceil_div total per_page in
  (page_items items page per_page,
   {| PaginatedResponse.total := total;
      PaginatedResponse.page := page;
      PaginatedResponse.per_page := per_page;
      PaginatedResponse.total_pages := total_pages;
      PaginatedResponse.has_next := page <? total_pages;
      PaginatedResponse.has_previous := 1 <? page |}).

End Pagination.

(** ** Hierarchy resolver *)

Module Hierarchy.

(** The kinds of self-referential tables of the schema. *)
Inductive Kind : Type := Category | Page | MenuItem.

(** What the resolver reads of a [Category], [Page] or [MenuItem] row:
    [id], [parent_id], and the ordering key ([Category.name],
    [Page.menu_order], [MenuItem.order]). *)
Record Entity : Type :=
  { id : Z;
    parent_id : option Z;
    name : string;
    order : Z }.

#[global] Instance Entity_eq_dec : EqDecision Entity.
Proof. solve_decision. Defined.

Inductive Tree : Type := TNode (e : Entity) (children : list Tree).

Definition root_of (t : Tree) : Entity := match t with TNode e _ => e end.

Definition children (t : Tree) : list Tree :=
  match t with TNode _ ts => ts end.

(** The nodes of a tree, parent first. *)
Fixpoint flatten (t : Tree) : list Entity :=
  match t with
  | TNode e ts => e :: (ts ≫= flatten)
  end.

(** The (parent id, child id) pairs of a tree. *)
Fixpoint edges (t : Tree) : list (Z * Z) :=
  match t with
  | TNode e ts =>
      ((fun c => (id e, id (root_of c))) <$> ts) ++ (ts ≫= edges)
  end.

(** The paths from the root of a tree to each of its nodes, as ids. *)
Fixpoint paths (t : Tree) : list (list Z) :=
  match t with
  | TNode e ts => [id e] :: (cons (id e) <$> (ts ≫= paths))
  end.

(** Modelled from the spec: the ordering of siblings, section 4.1: by the
    kind's ordering key ([name] for a category, which has no order field),
    ties broken by identifier ascending. *)
Definition before (k : Kind) (a b : Entity) : Prop :=
  match k with
  | Category =>
      (String.le (name a) (name b) /\ name a <> name b)
      \/ (name a = name b /\ id a <= id b)
  | Page | MenuItem =>
      order a < order b \/ (order a = order b /\ id a <= id b)
  end.

#[global] Instance before_dec k : RelDecision (before k).
Proof. intros a b. destruct k; unfold before; apply _. Defined.

Inductive Visit : Type := InProgress | Done.

(** Metadata returned next to the forest when nodes were demoted. *)
Record HierarchyIntegrityWarning : Type := { demoted : list Z }.

Record Resolved : Type :=
  { forest : list Tree;
    warning : option HierarchyIntegrityWarning }.

Section Resolver.

Variable kind : Kind.
Variable nodes : list Entity.

(** Modelled from the spec: the arena, a mapping from id to node. *)
Definition by_id : gmap Z Entity :=
  list_to_map ((fun e => (id e, e)) <$> nodes).

(** Modelled from the spec: the mapping from parent id to the ids of its
    children, built in one pass over the nodes. *)
Definition add_child (m : gmap Z (list Z)) (e : Entity) : gmap Z (list Z) :=
  match parent_id e with
  | None => m
  | Some p => <[p := default [] (m !! p) ++ [id e]]> m
  end.

Definition children_of : gmap Z (list Z) := foldl add_child ∅ nodes.

Definition sort_nodes (es : list Entity) : list Entity :=
  merge_sort (before kind) es.

Definition sorted_children (i : Z) : list Z :=
  id <$> sort_nodes (omap (fun c => by_id !! c) (default [] (children_of !! i))).

(** Modelled from the spec: a declared root has a null parent, or a
    parent that is not among the nodes. *)
Definition declared_root (e : Entity) : bool :=
  match parent_id e with
  | None => true
  | Some p => bool_decide (by_id !! p = None)
  end.

Definition dangling (e : Entity) : bool :=
  match parent_id e with
  | None => false
  | Some p => bool_decide (by_id !! p = None)
  end.

Fixpoint visit_all (visit : gmap Z Visit -> Z -> option (gmap Z Visit * option Tree))
    (st : gmap Z Visit) (ids : list Z) : option (gmap Z Visit * list Tree) :=
  match ids with
  | [] => Some (st, [])
  | i :: rest =>
      '(st1, r) ← visit st i;
      '(st2, ts) ← visit_all visit st1 rest;
      Some (st2, option_list r ++ ts)
  end.

(** Modelled from the spec: the depth-first walk with a visit state per
    node (unvisited when absent from [st]); a node that is not unvisited is
    skipped.  [None] only when the recursion budget [fuel] is used up. *)
Fixpoint dfs (fuel : nat) (st : gmap Z Visit) (i : Z)
  : option (gmap Z Visit * option Tree) :=
  match fuel with
  | O => None
  | S fuel' =>
      match st !! i with
      | Some _ => Some (st, None)
      | None =>
          match by_id !! i with
          | None => Some (st, None)
          | Some e =>
              '(st', ts) ← visit_all (dfs fuel') (<[i := InProgress]> st)
                             (sorted_children i);
              Some (<[i := Done]> st', Some (TNode e ts))
          end
      end
  end.

(** Modelled from the spec: the resolver.  The walk starts from every
    declared root; the nodes it did not reach (reachable only through a
    cycle) become roots of their own; the warning lists the demoted nodes
    (dangling parent, or cycle). *)
Definition resolve_with (fuel : nat) : option Resolved :=
  let roots := sort_nodes (filter (fun e => declared_root e = true) nodes) in
  '(st, trees) ← visit_all (dfs fuel) ∅ (id <$> roots);
  let unreached := sort_nodes (filter (fun e => st !! id e = None) nodes) in
  let demotions :=
    (id <$> filter (fun e => dangling e = true) roots) ++ (id <$> unreached) in
  Some {| forest := trees ++ ((fun e => TNode e []) <$> unreached);
          warning := match demotions with
                     | [] => None
                     | _ :: _ => Some {| demoted := demotions |}
                     end |}.

Definition resolve : option Resolved := resolve_with (S (length nodes)).

(** The chain of parents of [e] ends at a declared root within [n] steps. *)
Fixpoint rooted (n : nat) (e : Entity) : bool :=
  match parent_id e with
  | None => true
  | Some p =>
      match by_id !! p with
      | None => true
      | Some pe => match n with O => false | S n' => rooted n' pe end
      end
  end.

End Resolver.

Definition nodes_of (r : Resolved) : list Entity :=
  forest r ≫= flatten.

Definition edges_of (r : Resolved) : list (Z * Z) :=
  forest r ≫= edges.

Definition paths_of (r : Resolved) : list (list Z) :=
  forest r ≫= paths.

End Hierarchy.

(** ** Response cache *)

Module Cache.

Section Cache.

(** The payload ([CacheEntry.data], opaque), the failure a computation
    may raise, and whatever the computation reads or changes besides. *)
Context {Data Err World : Type}.

(** The columns of [CacheEntry] ([id] is the row's own key; the table is
    held by [cache_key], which is unique).  Times are seconds. *)
Record CacheEntry : Type :=
  { cache_key : string;
    data : Data;
    expires_at : option Z;
    created_at : Z;
    updated_at : Z }.

(** The rows by fingerprint, and the fingerprints being computed. *)
Record State : Type :=
  { entries : gmap string CacheEntry;
    in_flight : gset string }.

Inductive Outcome : Type :=
| Returned (d : Data)
| Raised (e : Err)
| Blocked.

(** Modelled from the spec: an entry is expired once [expires_at] has
    passed; a null [expires_at] never expires by time. *)
Definition fresh (now : Z) (entry : CacheEntry) : bool :=
  match expires_at entry with
  | None => true
  | Some t => now <=? t
  end.

(** Modelled from the spec: the entry a read at [now] may serve. *)
Definition lookup_fresh (now : Z) (fingerprint : string) (c : State)
  : option CacheEntry :=
  match entries c !! fingerprint with
  | Some entry => if fresh now entry then Some entry else None
  | None => None
  end.

(** Modelled from the spec: [expires_at = now + ttl], null for [ttl = 0]. *)
Definition new_entry (now : Z) (fingerprint : string) (ttl : Z) (d : Data)
  : CacheEntry :=
  {| cache_key := fingerprint;
     data := d;
     expires_at := if ttl =? 0 then None else Some (now + ttl);
     created_at := now;
     updated_at := now |}.

(** Modelled from the spec: [get_or_compute] of section 4.4, one caller at
    a time; [models.py] declares the [CacheEntry] row only.  A read of an
    expired row is a miss; the row stays until it is overwritten.  On a
    miss the caller takes the fingerprint's in-flight lock, computes, and
    gives the lock back whether the computation returned or failed; it
    finds the lock taken only when another computation is in flight. *)
Definition get_or_compute (fingerprint : string) (ttl : Z)
    (compute_fn : World -> (Err + Data) * World)
    (now : Z) (c : State) (w : World) : Outcome * State * World :=
  match lookup_fresh now fingerprint c with
  | Some entry => (Returned (data entry), c, w)
  | None =>
      if bool_decide (fingerprint ∈ in_flight c)
      then (Blocked, c, w)
      else
        let locked := {| entries := entries c;
                         in_flight := {[fingerprint]} ∪ in_flight c |} in
        let '(result, w') := compute_fn w in
        match result with
        | inr d =>
            (Returned d,
             {| entries := <[fingerprint := new_entry now fingerprint ttl d]>
                             (entries locked);
                in_flight := in_flight locked ∖ {[fingerprint]} |},
             w')
        | inl e =>
            (Raised e,
             {| entries := entries locked;
                in_flight := in_flight locked ∖ {[fingerprint]} |},
             w')
        end
  end.

(** A computation with a call counter next to its world. *)
Definition counted (compute_fn : World -> (Err + Data) * World)
  : nat * World -> (Err + Data) * (nat * World) :=
  fun '(n, w) => let '(r, w') := compute_fn w in (r, (S n, w')).

End Cache.

Arguments CacheEntry : clear implicits.
Arguments State : clear implicits.
Arguments Outcome : clear implicits.

End Cache.

(** * Validation of the request schemas *)

Section ValidationFacts.

Import Field.

Lemma raise_or_return_inr {A : Type} (errs : list ErrorDetail) (v r : A) :
  raise_or_return errs v = inr r <-> errs = [] /\ r = v.
Proof.
  destruct errs as [|d errs]; simpl; split.
  - by intros [= ->].
  - by intros [_ ->].
  - discriminate.
  - by intros [? _].
Qed.

Lemma raise_or_return_inl {A : Type} (errs : list ErrorDetail) (v : A) err :
  raise_or_return errs v = inl err -> errs <> [] /\ errors err = errs.
Proof. destruct errs; simpl; [discriminate|]. by intros [= <-]. Qed.


Lemma check_str_nil f name v :
  check_str f name v = [] <->
  below (min_length f) (String.length v) = false /\
  above (max_length f) (String.length v) = false /\
  mismatch (regex f) v = false.
Proof.
  unfold check_str.
  destruct (below _ _), (above _ _), (mismatch _ _); split; try discriminate;
    try done; intros (? & ? & ?); discriminate.
Qed.

Lemma check_opt_str_nil f name v :
  check_opt_str f name v = [] <->
  match v with
  | None => True
  | Some s => check_str f name s = []
  end.
Proof. by destruct v. Qed.


Lemma app_nil_iff {A : Type} (l k : list A) : l ++ k = [] <-> l = [] /\ k = [].
Proof. destruct l; simpl; split; [done|by intros [_ ->]|done|by intros [? _]]. Qed.

End ValidationFacts.

(** C6: a search request with an empty query never comes into being:
    constructing it raises a [ValidationError] that names [query] as too
    short, whatever the other arguments are; and a request that was
    constructed holds the supplied query, of length at least 1.  The
    constructor takes the arguments only, so the rejection precedes any
    use of the request against the store. *)
Theorem search_request_rejects_empty_query :
  (forall a_post_type a_category_slug a_tag_slug a_limit a_offset,
     exists err,
       SearchRequest.init (Some "") a_post_type a_category_slug a_tag_slug
         a_limit a_offset = inl err /\
       {| Field.loc := "query"; Field.type := Field.string_too_short |}
         ∈ Field.errors err) /\
  (forall a_query a_post_type a_category_slug a_tag_slug a_limit a_offset r,
     SearchRequest.init a_query a_post_type a_category_slug a_tag_slug
       a_limit a_offset = inr r ->
     a_query = Some (SearchRequest.query r) /\
     (1 <= String.length (SearchRequest.query r))%nat).
Proof.
  split.
  - intros pt cs ts l o. unfold SearchRequest.init. simpl.
    destruct (Field.with_default _ _ pt) as [v2 e2].
    destruct (Field.with_default _ _ cs) as [v3 e3].
    destruct (Field.with_default _ _ ts) as [v4 e4].
    destruct (Field.with_default _ _ l) as [v5 e5].
    destruct (Field.with_default _ _ o) as [v6 e6].
    simpl. eexists. split; [reflexivity|]. simpl. apply list_elem_of_here.
  - intros q pt cs ts l o r. unfold SearchRequest.init.
    destruct (Field.required _ _ _ q) as [v1 e1] eqn:E1.
    destruct (Field.with_default _ _ pt) as [v2 e2].
    destruct (Field.with_default _ _ cs) as [v3 e3].
    destruct (Field.with_default _ _ ts) as [v4 e4].
    destruct (Field.with_default _ _ l) as [v5 e5].
    destruct (Field.with_default _ _ o) as [v6 e6].
    intros [[He _]%app_nil_iff ->]%raise_or_return_inr. subst e1. simpl.
    destruct q as [s|]; simpl in E1; [|discriminate].
    injection E1 as <- Hc. apply check_str_nil in Hc as (Hlo & _ & _).
    simpl in Hlo. apply Nat.ltb_ge in Hlo. done.
Qed.

Lemma search_request_rejects_empty_query_witness :
  Some "wordpress" = Some "wordpress" /\ (1 <= String.length "wordpress")%nat.
Proof.
  exact (proj2 search_request_rejects_empty_query
           (Some "wordpress") None (Some (Some "news")) None (Some 20) None
           {| SearchRequest.query := "wordpress";
              SearchRequest.post_type := Some "post";
              SearchRequest.category_slug := Some "news";
              SearchRequest.tag_slug := None;
              SearchRequest.limit := 20;
              SearchRequest.offset := 0 |}
           eq_refl).
Defined.



(** C10: a search request constructed from a query alone gets
    [post_type = "post"], no category or tag slug, [limit = 10] and
    [offset = 0]; and whatever else is supplied, each optional field that
    is left out holds its default in the constructed request. *)
Theorem search_request_defaults :
  (forall q, (1 <= String.length q <= 255)%nat ->
     SearchRequest.init (Some q) None None None None None =
     inr {| SearchRequest.query := q;
            SearchRequest.post_type := Some "post";
            SearchRequest.category_slug := None;
            SearchRequest.tag_slug := None;
            SearchRequest.limit := 10;
            SearchRequest.offset := 0 |}) /\
  (forall a_query a_post_type a_category_slug a_tag_slug a_limit a_offset r,
     SearchRequest.init a_query a_post_type a_category_slug a_tag_slug
       a_limit a_offset = inr r ->
     (a_post_type = None -> SearchRequest.post_type r = Some "post") /\
     (a_category_slug = None -> SearchRequest.category_slug r = None) /\
     (a_tag_slug = None -> SearchRequest.tag_slug r = None) /\
     (a_limit = None -> SearchRequest.limit r = 10) /\
     (a_offset = None -> SearchRequest.offset r = 0)).
Proof.
  split.
  - intros q [Hlo Hhi]. unfold SearchRequest.init. simpl.
    assert (Field.check_str SearchRequest.query_field "query" q = []) as ->; [|done].
    apply check_str_nil. simpl. split_and!; [|  |done].
    + apply Nat.ltb_ge. lia.
    + apply Nat.ltb_ge. lia.
  - intros q pt cs ts l o r. unfold SearchRequest.init.
    destruct (Field.required _ _ _ q) as [v1 e1].
    destruct (Field.with_default _ _ pt) as [v2 e2] eqn:E2.
    destruct (Field.with_default _ _ cs) as [v3 e3] eqn:E3.
    destruct (Field.with_default _ _ ts) as [v4 e4] eqn:E4.
    destruct (Field.with_default _ _ l) as [v5 e5] eqn:E5.
    destruct (Field.with_default _ _ o) as [v6 e6] eqn:E6.
    intros [_ ->]%raise_or_return_inr. simpl.
    split_and!; intros ->; simpl in *; congruence.
Qed.

Lemma search_request_defaults_witness :
  SearchRequest.init (Some "gutenberg") None None None None None =
  inr {| SearchRequest.query := "gutenberg";
         SearchRequest.post_type := Some "post";
         SearchRequest.category_slug := None;
         SearchRequest.tag_slug := None;
         SearchRequest.limit := 10;
         SearchRequest.offset := 0 |}.
Proof.
  apply (proj1 search_request_defaults "gutenberg"). simpl. lia.
Defined.

(** * Keys of the persistent tables *)

Module StoreFacts.

Import Store.

(** Every row is well-typed and no two rows clash. *)
Fixpoint consistent (t : Table) (rows : list Row) : Prop :=
  match rows with
  | [] => True
  | r :: rs =>
      row_ok t r = true /\ Forall (fun r' => clashes t r r' = false) rs /\
      consistent t rs
  end.

Lemma insert_row_inr t r rows rows' :
  insert_row t r rows = inr rows' ->
  rows' = r :: rows /\ row_ok t r = true /\
  Forall (fun r' => clashes t r r' = false) rows.
Proof.
  unfold insert_row. destruct (row_ok t r) eqn:Hok; simpl; [|discriminate].
  destruct (forallb _ rows) eqn:Hall; [|discriminate].
  intros [= <-]. split_and!; [done..|].
  apply Forall_forall. intros r' Hr'.
  rewrite forallb_forall in Hall. apply negb_true_iff, Hall.
  by apply list_elem_of_In.
Qed.

Lemma consistent_filter t (P : Row -> Prop) `{!forall r, Decision (P r)} rows :
  consistent t rows -> consistent t (filter P rows).
Proof.
  induction rows as [|r rs IH]; [done|]. intros (Hok & Hall & Hrs).
  rewrite filter_cons. destruct (decide (P r)); [|by apply IH].
  split_and!; [done| |by apply IH].
  rewrite Forall_forall in *. intros r' [_ ?]%list_elem_of_filter. auto.
Qed.

Lemma apply_consistent t w rows rows' :
  consistent t rows -> apply t w rows = inr rows' -> consistent t rows'.
Proof.
  intros Hc. destruct w as [r|k|k r]; simpl.
  - intros (-> & ? & ?)%insert_row_inr. done.
  - intros [= <-]. by apply consistent_filter.
  - case_bool_decide; [by intros [= <-]|].
    intros (-> & ? & ?)%insert_row_inr. split_and!; [done..|].
    by apply consistent_filter.
Qed.

Lemma step_consistent t w rows :
  consistent t rows -> consistent t (step t rows w).
Proof.
  intros Hc. unfold step. destruct (apply t w rows) eqn:E; [done|].
  by eapply apply_consistent.
Qed.

Lemma run_consistent t ws : consistent t (run t ws).
Proof.
  unfold run. assert (consistent t []) as H by done. revert H.
  generalize (@nil Row). induction ws as [|w ws IH]; intros rows Hc; [done|].
  simpl. by apply IH, step_consistent.
Qed.

Lemma consistent_row_ok t rows r :
  consistent t rows -> r ∈ rows -> row_ok t r = true.
Proof.
  induction rows as [|r0 rs IH]; [by intros _ ?%elem_of_nil|].
  intros (Hok & _ & Hrs) [->|?]%elem_of_cons; auto.
Qed.

Lemma row_ok_column t r c :
  row_ok t r = true -> c ∈ columns t ->
  exists v, r !! cname c = Some v /\ has_type (nullable c) v (ctype_of c) = true.
Proof.
  unfold row_ok. rewrite forallb_forall. intros H Hc%list_elem_of_In.
  specialize (H c Hc). destruct (r !! cname c) as [v|]; [eauto|done].
Qed.

Lemma clashes_unique t r r' c :
  clashes t r r' = false -> c ∈ unique_cols t -> r !! c <> r' !! c.
Proof.
  unfold clashes. intros [_ Hu]%orb_false_iff Hc%list_elem_of_In Heq.
  assert (existsb (fun c => bool_decide (r !! c = r' !! c)) (unique_cols t) = true)
    as Hex; [|congruence].
  apply existsb_exists. exists c. split; [done|]. by apply bool_decide_eq_true.
Qed.

Lemma clashes_pk t r r' :
  clashes t r r' = false -> key (pk_cols t) r <> key (pk_cols t) r'.
Proof.
  unfold clashes. intros [Hk _]%orb_false_iff.
  by apply bool_decide_eq_false in Hk.
Qed.

Lemma filter_none {A : Type} (P : A -> Prop) `{!forall x, Decision (P x)} l :
  (forall x, x ∈ l -> ~ P x) -> filter P l = [].
Proof.
  induction l as [|x l IH]; [done|]. intros Hnone.
  rewrite filter_cons_False; [|apply Hnone, list_elem_of_here].
  apply IH. intros y Hy. apply Hnone. by apply list_elem_of_further.
Qed.

(** A declared unique column holds each value in at most one row. *)
Lemma consistent_unique t c v rows :
  c ∈ unique_cols t -> consistent t rows ->
  (length (rows_with c v rows) <= 1)%nat.
Proof.
  intros Hc. unfold rows_with.
  induction rows as [|r rs IH]; [simpl; lia|]. intros (_ & Hall & Hrs).
  rewrite filter_cons. destruct (decide (r !! c = Some v)) as [Hr|]; [|by apply IH].
  assert (filter (fun r0 : Row => r0 !! c = Some v) rs = []) as ->; [|simpl; lia].
  apply filter_none. rewrite Forall_forall in Hall.
  intros r' Hr' Hv. apply (clashes_unique t r r' c); [by apply Hall|done|congruence].
Qed.

End StoreFacts.

Section LinkTables.

Import Store StoreFacts.

Variable t : Table.
Variables ca cb : string.
Hypothesis pk_t : pk_cols t = [ca; cb].

Lemma edges_filter_le (Q : Row -> Prop) `{!forall r, Decision (Q r)} a b rows :
  (length (edges ca cb a b (filter Q rows)) <= length (edges ca cb a b rows))%nat.
Proof.
  unfold edges. induction rows as [|r rs IH]; [done|].
  rewrite !filter_cons. destruct (decide (Q r)); rewrite ?filter_cons;
    destruct (decide _); simpl; lia.
Qed.

Lemma edges_insert a b r rows rows' :
  at_most_one_edge ca cb rows -> insert_row t r rows = inr rows' ->
  (length (edges ca cb a b rows') <= 1)%nat.
Proof.
  intros Hone (-> & _ & Hall)%insert_row_inr. unfold edges.
  rewrite filter_cons. destruct (decide _) as [[Ha Hb]|]; [|apply Hone].
  fold (edges ca cb a b rows).
  assert (edges ca cb a b rows = []) as ->; [|simpl; lia].
  apply filter_none. rewrite Forall_forall in Hall.
  intros r' Hr' [Ha' Hb']. apply (clashes_pk t r r'); [by apply Hall|].
  rewrite pk_t. simpl. congruence.
Qed.

Lemma apply_at_most_one w rows rows' :
  at_most_one_edge ca cb rows -> apply t w rows = inr rows' ->
  at_most_one_edge ca cb rows'.
Proof.
  intros Hone. destruct w as [r|k|k r]; simpl.
  - intros Hi a b. by eapply edges_insert.
  - intros [= <-] a b. unfold others.
    etrans; [apply edges_filter_le|apply Hone].
  - case_bool_decide; [by intros [= <-]|].
    intros Hi a b. eapply edges_insert; [|done].
    intros a' b'. unfold others. etrans; [apply edges_filter_le|apply Hone].
Qed.

Lemma run_at_most_one ws : at_most_one_edge ca cb (run t ws).
Proof.
  unfold run. assert (at_most_one_edge ca cb []) as H by (intros a b; simpl; lia).
  revert H. generalize (@nil Row).
  induction ws as [|w ws IH]; intros rows Hone; [done|].
  simpl. apply IH. unfold step. destruct (apply t w rows) eqn:E; [done|].
  by eapply apply_at_most_one.
Qed.

End LinkTables.

(** C5: in every state the link tables reach there is at most one
    [PostCategoryLink] per (post_id, category_id) and at most one
    [PostTagLink] per (post_id, tag_id), and a write (insert, delete or
    update) that commits on a table with this property leaves it with
    the property; a write that is refused leaves the table as it was. *)
Theorem link_edges_unique :
  (forall ws, Store.at_most_one_edge "post_id" "category_id"
                (Store.run Store.PostCategoryLink ws)) /\
  (forall ws, Store.at_most_one_edge "post_id" "tag_id"
                (Store.run Store.PostTagLink ws)) /\
  (forall w rows rows',
     Store.at_most_one_edge "post_id" "category_id" rows ->
     Store.apply Store.PostCategoryLink w rows = inr rows' ->
     Store.at_most_one_edge "post_id" "category_id" rows') /\
  (forall w rows rows',
     Store.at_most_one_edge "post_id" "tag_id" rows ->
     Store.apply Store.PostTagLink w rows = inr rows' ->
     Store.at_most_one_edge "post_id" "tag_id" rows') /\
  (forall t w rows err,
     Store.apply t w rows = inl err -> Store.step t rows w = rows).
Proof.
  split_and!.
  - intros ws. by apply run_at_most_one.
  - intros ws. by apply run_at_most_one.
  - intros w rows rows'. by apply apply_at_most_one.
  - intros w rows rows'. by apply apply_at_most_one.
  - intros t w rows err E. unfold Store.step. by rewrite E.
Qed.

Lemma link_edges_unique_witness :
  Store.run Store.PostCategoryLink
    [ Store.Insert (Store.link "post_id" "category_id" 1 2);
      Store.Insert (Store.link "post_id" "category_id" 1 2);
      Store.Insert (Store.link "post_id" "category_id" 1 3) ]
  = [ Store.link "post_id" "category_id" 1 3;
      Store.link "post_id" "category_id" 1 2 ] /\
  Store.at_most_one_edge "post_id" "category_id"
    [ Store.link "post_id" "category_id" 1 3;
      Store.link "post_id" "category_id" 1 2 ].
Proof.
  split; [by vm_compute|].
  apply (proj1 (proj2 (proj2 link_edges_unique))
           (Store.Insert (Store.link "post_id" "category_id" 1 3))
           [ Store.link "post_id" "category_id" 1 2 ]).
  - apply (proj1 link_edges_unique
             [ Store.Insert (Store.link "post_id" "category_id" 1 2) ]).
  - by vm_compute.
Defined.

Section SlugKeys.

Import Store StoreFacts.




End SlugKeys.




(** * Pagination *)

Section PaginationFacts.

Import Pagination.

Lemma ceil_div_spec a b :
  0 < b -> (ceil_div a b - 1) * b < a <= ceil_div a b * b.
Proof.
  intros Hb. unfold ceil_div.
  pose proof (Z.div_mod (- a) b ltac:(lia)) as Hdm.
  pose proof (Z.mod_pos_bound (- a) b Hb) as Hm.
  nia.
Qed.

Lemma ceil_div_unique a b n : 0 < b -> (n - 1) * b < a <= n * b -> n = ceil_div a b.
Proof.
  intros Hb Hn. pose proof (ceil_div_spec a b Hb). nia.
Qed.

Lemma length_page_items {A : Type} (items : list A) page per_page :
  1 <= page -> 1 <= per_page ->
  Z.of_nat (length (page_items items page per_page)) =
  Z.max 0 (Z.min per_page (Z.of_nat (length items) - (page - 1) * per_page)).
Proof.
  intros Hp Hpp. unfold page_items. rewrite length_take, length_drop.
  assert (0 <= (page - 1) * per_page) by nia.
  generalize dependent ((page - 1) * per_page). intros k Hk. lia.
Qed.

End PaginationFacts.

(** C3: for [page >= 1], [1 <= per_page <= 100] and any list of items,
    the response carries [total_pages = ceil(total / per_page)] (the one
    integer [n] with [(n-1) * per_page < total <= n * per_page]),
    [has_next] exactly when [page < total_pages], [has_previous] exactly
    when [page > 1]; a page beyond the last has no items and the same
    totals, a page within has [min per_page (total - (page-1)*per_page)]
    items.  With 25 items and [per_page = 10], page 3 has the last five
    items and page 4 none, both with [total_pages = 3], no next page and
    a previous one. *)
Theorem paginate_contract :
  (forall (A : Type) (items : list A) (params : PaginationParams.t),
     let page := PaginationParams.page params in
     let per_page := PaginationParams.per_page params in
     let total := Z.of_nat (length items) in
     let result := Pagination.paginate items params in
     let total_pages := PaginatedResponse.total_pages result.2 in
     1 <= page -> 1 <= per_page <= 100 ->
     PaginatedResponse.total result.2 = total /\
     PaginatedResponse.page result.2 = page /\
     PaginatedResponse.per_page result.2 = per_page /\
     (total_pages - 1) * per_page < total <= total_pages * per_page /\
     (forall n, (n - 1) * per_page < total <= n * per_page -> n = total_pages) /\
     (PaginatedResponse.has_next result.2 = true <-> page < total_pages) /\
     (PaginatedResponse.has_previous result.2 = true <-> page > 1) /\
     (total_pages < page -> result.1 = []) /\
     (page <= total_pages ->
        Z.of_nat (length result.1) = Z.min per_page (total - (page - 1) * per_page)
        /\ result.1 <> [])) /\
  (forall order_by order,
     Pagination.paginate (seqZ 1 25)
       {| PaginationParams.page := 3; PaginationParams.per_page := 10;
          PaginationParams.order_by := order_by; PaginationParams.order := order |}
     = ([21; 22; 23; 24; 25],
        {| PaginatedResponse.total := 25; PaginatedResponse.page := 3;
           PaginatedResponse.per_page := 10; PaginatedResponse.total_pages := 3;
           PaginatedResponse.has_next := false;
           PaginatedResponse.has_previous := true |})) /\
  (forall order_by order,
     Pagination.paginate (seqZ 1 25)
       {| PaginationParams.page := 4; PaginationParams.per_page := 10;
          PaginationParams.order_by := order_by; PaginationParams.order := order |}
     = ([],
        {| PaginatedResponse.total := 25; PaginatedResponse.page := 4;
           PaginatedResponse.per_page := 10; PaginatedResponse.total_pages := 3;
           PaginatedResponse.has_next := false;
           PaginatedResponse.has_previous := true |})).
Proof.
  split_and!; [|done..].
  intros A items params page per_page total result total_pages Hp Hpp.
  assert (Htp : total_pages = Pagination.ceil_div total per_page) by done.
  pose proof (ceil_div_spec total per_page ltac:(lia)) as Hceil.
  rewrite <- Htp in Hceil.
  pose proof (length_page_items items page per_page Hp ltac:(lia)) as Hlen.
  fold total in Hlen. change (Pagination.page_items items page per_page) with result.1 in Hlen.
  assert (Huniq : forall n, (n - 1) * per_page < total <= n * per_page ->
                        n = total_pages).
  { intros n Hn. rewrite Htp. apply ceil_div_unique; lia. }
  assert (Hnext : PaginatedResponse.has_next result.2 = true <-> page < total_pages).
  { simpl. fold total_pages. apply Z.ltb_lt. }
  assert (Hprev : PaginatedResponse.has_previous result.2 = true <-> page > 1).
  { simpl. rewrite Z.ltb_lt. lia. }
  assert (Hbeyond : total_pages < page -> result.1 = []).
  { intros Hb. apply length_zero_iff_nil. nia. }
  assert (Hin : page <= total_pages ->
                Z.of_nat (length result.1) =
                Z.min per_page (total - (page - 1) * per_page)
                /\ result.1 <> []).
  { intros Hle. assert (0 < Z.of_nat (length result.1)) as Hpos by nia.
    split; [nia|]. intros E. rewrite E in Hpos. simpl in Hpos. lia. }
  repeat (split; [done|]). done.
Qed.

Lemma paginate_contract_witness :
  Z.of_nat (length (Pagination.paginate (seqZ 1 25)
     {| PaginationParams.page := 3; PaginationParams.per_page := 10;
        PaginationParams.order_by := "wp_created_at";
        PaginationParams.order := "desc" |}).1) = 5 /\
  (Pagination.paginate (seqZ 1 25)
     {| PaginationParams.page := 3; PaginationParams.per_page := 10;
        PaginationParams.order_by := "wp_created_at";
        PaginationParams.order := "desc" |}).1 <> [].
Proof.
  pose proof (proj1 paginate_contract Z (seqZ 1 25)
                {| PaginationParams.page := 3; PaginationParams.per_page := 10;
                   PaginationParams.order_by := "wp_created_at";
                   PaginationParams.order := "desc" |}) as H.
  cbv zeta in H. simpl PaginationParams.page in H.
  simpl PaginationParams.per_page in H.
  destruct (H ltac:(lia) ltac:(lia)) as (_ & _ & _ & _ & _ & _ & _ & _ & Hin).
  apply Hin. by vm_compute.
Defined.

(** * Response cache *)

Section CacheFacts.

Import Cache.

Context {Data Err World : Type}.

Implicit Types (c : State Data) (entry : CacheEntry Data).
Implicit Types (compute_fn : World -> (Err + Data) * World).

Lemma release_lock (fingerprint : string) (locks : gset string) :
  fingerprint ∉ locks -> ({[fingerprint]} ∪ locks) ∖ {[fingerprint]} = locks.
Proof.
  intros Hfree. apply set_eq. intros x.
  rewrite elem_of_difference, elem_of_union, elem_of_singleton.
  split; [by intros [[?|?] ?]|]. intros Hx. split; [by right|].
  by intros ->.
Qed.

Lemma lookup_fresh_Some now fingerprint c entry :
  lookup_fresh now fingerprint c = Some entry <->
  entries c !! fingerprint = Some entry /\
  (expires_at entry = None \/ exists t, expires_at entry = Some t /\ now <= t).
Proof.
  unfold lookup_fresh, fresh. destruct (entries c !! fingerprint) as [e0|].
  - destruct (expires_at e0) as [t|] eqn:Et.
    + destruct (Z.leb_spec now t); split.
      * intros [= <-]. eauto.
      * by intros [[= <-] _].
      * discriminate.
      * intros [[= <-] [?|(t' & ? & ?)]]; simplify_eq. lia.
    + split; [intros [= <-]; auto | by intros [[= <-] _]].
  - split; [discriminate | by intros [? _]].
Qed.


Lemma get_or_compute_hit fingerprint ttl compute_fn now c (w : World) entry :
  lookup_fresh now fingerprint c = Some entry ->
  get_or_compute fingerprint ttl compute_fn now c w = (Returned (data entry), c, w).
Proof. intros H. unfold get_or_compute. by rewrite H. Qed.

Lemma get_or_compute_miss fingerprint ttl compute_fn now c (w w' : World) d :
  lookup_fresh now fingerprint c = None ->
  fingerprint ∉ in_flight c ->
  compute_fn w = (inr d, w') ->
  get_or_compute fingerprint ttl compute_fn now c w =
  (Returned d,
   {| entries := <[fingerprint := new_entry now fingerprint ttl d]> (entries c);
      in_flight := in_flight c |},
   w').
Proof.
  intros Hmiss Hfree Hf. unfold get_or_compute. rewrite Hmiss, Hf.
  rewrite bool_decide_eq_false_2 by done. simpl. by rewrite release_lock.
Qed.


Lemma new_entry_fresh now now' fingerprint ttl (d : Data) :
  ttl = 0 \/ now' <= now + ttl ->
  fresh now' (new_entry now fingerprint ttl d) = true.
Proof.
  unfold fresh, new_entry. simpl. destruct (Z.eqb_spec ttl 0); [done|].
  intros [?|?]; [done|]. by apply Z.leb_le.
Qed.

End CacheFacts.

(** C2: [get_or_compute] returns the data of the entry of the fingerprint
    when there is one that has not expired, and invokes nothing; on a miss
    it invokes [compute_fn], stores the result under the fingerprint with
    [expires_at = now + ttl] (null when [ttl = 0]) and returns it.  Two
    calls in a row for one fingerprint, the second before expiry, return
    the same payload, and the call counter of [compute_fn] goes up by
    exactly one. *)
Theorem get_or_compute_contract (Data Err World : Type) :
  (forall fingerprint ttl (compute_fn : World -> (Err + Data) * World)
          now c w entry,
     Cache.entries c !! fingerprint = Some entry ->
     (Cache.expires_at entry = None \/
      exists t, Cache.expires_at entry = Some t /\ now <= t) ->
     Cache.get_or_compute fingerprint ttl compute_fn now c w =
     (Cache.Returned (Cache.data entry), c, w)) /\
  (forall fingerprint ttl (compute_fn : World -> (Err + Data) * World)
          now c w d w',
     Cache.lookup_fresh now fingerprint c = None ->
     fingerprint ∉ Cache.in_flight c ->
     compute_fn w = (inr d, w') ->
     Cache.get_or_compute fingerprint ttl compute_fn now c w =
     (Cache.Returned d,
      {| Cache.entries :=
           <[fingerprint :=
               {| Cache.cache_key := fingerprint;
                  Cache.data := d;
                  Cache.expires_at := if ttl =? 0 then None else Some (now + ttl);
                  Cache.created_at := now;
                  Cache.updated_at := now |}]> (Cache.entries c);
         Cache.in_flight := Cache.in_flight c |},
      w')) /\
  (forall fingerprint ttl (compute_fn : World -> (Err + Data) * World)
          now1 now2 c (calls : nat) w d w',
     Cache.lookup_fresh now1 fingerprint c = None ->
     fingerprint ∉ Cache.in_flight c ->
     compute_fn w = (inr d, w') ->
     now1 <= now2 ->
     ttl = 0 \/ now2 <= now1 + ttl ->
     exists c1,
       Cache.get_or_compute fingerprint ttl (Cache.counted compute_fn)
         now1 c (calls, w) = (Cache.Returned d, c1, (S calls, w')) /\
       Cache.get_or_compute fingerprint ttl (Cache.counted compute_fn)
         now2 c1 (S calls, w') = (Cache.Returned d, c1, (S calls, w'))).
Proof.
  split_and!.
  - intros fp ttl f now c w entry He Hx.
    apply get_or_compute_hit. by apply lookup_fresh_Some.
  - intros fp ttl f now c w d w' Hmiss Hfree Hf.
    by apply get_or_compute_miss.
  - intros fp ttl f now1 now2 c calls w d w' Hmiss Hfree Hf Hle Hbefore.
    eexists. split.
    + apply get_or_compute_miss; [done..|]. simpl. by rewrite Hf.
    + rewrite (get_or_compute_hit _ _ _ _ _ _ (Cache.new_entry now1 fp ttl d));
        [done|].
      unfold Cache.lookup_fresh. simpl.
      rewrite lookup_insert_eq. by rewrite new_entry_fresh.
Qed.

Lemma get_or_compute_contract_witness :
  exists c1 : Cache.State string,
    Cache.get_or_compute (Err := unit) "post:42" 300
      (Cache.counted (fun w : unit => (inr "payload", w))) 1000
      {| Cache.entries := ∅; Cache.in_flight := ∅ |} (0%nat, tt)
    = (Cache.Returned "payload", c1, (1%nat, tt)) /\
    Cache.get_or_compute (Err := unit) "post:42" 300
      (Cache.counted (fun w : unit => (inr "payload", w))) 1200
      c1 (1%nat, tt)
    = (Cache.Returned "payload", c1, (1%nat, tt)).
Proof.
  apply (proj2 (proj2 (get_or_compute_contract string unit unit))
           "post:42" 300 (fun w : unit => (inr "payload", w)) 1000 1200
           {| Cache.entries := ∅; Cache.in_flight := ∅ |} 0%nat tt "payload" tt).
  - reflexivity.
  - simpl. set_solver.
  - reflexivity.
  - lia.
  - right. lia.
Defined.



(** * Hierarchy resolver *)

Module HierarchyFacts.

Import Hierarchy.

(** Induction on trees, with the property available on every child. *)
Lemma Tree_ind' (P : Tree -> Prop) :
  (forall e ts, Forall P ts -> P (TNode e ts)) -> forall t, P t.
Proof.
  intros Hnode. fix IH 1. intros [e ts]. apply Hnode.
  induction ts as [|c cs IHcs]; constructor; [apply IH | apply IHcs].
Qed.

Lemma flatten_unfold t : flatten t = root_of t :: (children t ≫= flatten).
Proof. by destruct t. Qed.

Lemma bind_sublist {A B : Type} (f : A -> list B) (x : A) (l : list A) :
  x ∈ l -> f x `sublist_of` l ≫= f.
Proof.
  induction 1 as [x l|x y l _ IH]; rewrite bind_cons.
  - by apply sublist_inserts_r.
  - by apply sublist_inserts_l.
Qed.

(** The children of the edges of a forest are its nodes below the roots. *)
Lemma edges_children_list (f : Tree -> Z * Z) ts :
  (forall c, snd (f c) = id (root_of c)) ->
  Forall (fun c => (edges c).*2 ≡ₚ id <$> (children c ≫= flatten)) ts ->
  ((f <$> ts) ++ (ts ≫= edges)).*2 ≡ₚ id <$> (ts ≫= flatten).
Proof.
  intros Hf. induction 1 as [|c cs Hc _ IH]; [done|].
  rewrite fmap_app in IH. rewrite fmap_app, fmap_cons, !bind_cons, !fmap_app.
  rewrite (flatten_unfold c), fmap_cons, Hf. simpl. constructor.
  rewrite Permutation_app_swap_app, Hc. by rewrite IH.
Qed.

Lemma edges_children t : (edges t).*2 ≡ₚ id <$> (children t ≫= flatten).
Proof.
  induction t as [e ts IH] using Tree_ind'. simpl.
  by apply (edges_children_list (fun c => (id e, id (root_of c)))).
Qed.

Lemma edges_sublist_nodes ts :
  (ts ≫= edges).*2 ⊆+ id <$> (ts ≫= flatten).
Proof.
  induction ts as [|c cs IH]; [done|].
  rewrite !bind_cons, !fmap_app. apply submseteq_app; [|done].
  rewrite edges_children, (flatten_unfold c), fmap_cons.
  by apply submseteq_cons.
Qed.

(** A path runs through nodes of its tree, each at most once as often as
    the tree holds it. *)
Lemma paths_sublist t p : p ∈ paths t -> p `sublist_of` id <$> flatten t.
Proof.
  revert p. induction t as [e ts IH] using Tree_ind'. intros p. simpl.
  intros [->|Hp]%elem_of_cons.
  - apply sublist_skip, sublist_nil_l.
  - apply list_elem_of_fmap in Hp as (q & -> & Hq).
    apply list_elem_of_bind in Hq as (c & Hq & Hc).
    apply sublist_skip. rewrite Forall_forall in IH.
    etrans; [by apply IH|]. apply fmap_sublist. by apply bind_sublist.
Qed.

Lemma forest_paths_sublist ts p :
  p ∈ ts ≫= paths -> p `sublist_of` id <$> (ts ≫= flatten).
Proof.
  intros (c & Hp & Hc)%list_elem_of_bind.
  etrans; [by apply paths_sublist|]. apply fmap_sublist. by apply bind_sublist.
Qed.

Section ResolverFacts.

Variable kind : Kind.
Variable nodes : list Entity.

(** The ids are the primary key of the table the nodes come from. *)
Hypothesis nodes_key : NoDup (id <$> nodes).

Lemma by_id_elem i e : by_id nodes !! i = Some e -> e ∈ nodes /\ id e = i.
Proof.
  intros H%elem_of_list_to_map_2.
  apply list_elem_of_fmap in H as (e' & Heq & He).
  injection Heq as -> ->. done.
Qed.

Lemma by_id_lookup e : e ∈ nodes -> by_id nodes !! id e = Some e.
Proof.
  intros He. apply elem_of_list_to_map_1.
  - by rewrite <- list_fmap_compose.
  - apply list_elem_of_fmap. eauto.
Qed.

Lemma by_id_inj e e' :
  by_id nodes !! id e = Some e -> by_id nodes !! id e' = Some e' ->
  id e = id e' -> e = e'.
Proof. intros H H' E. rewrite E in H. congruence. Qed.

Lemma nodes_NoDup : NoDup nodes.
Proof. by eapply NoDup_fmap_1. Qed.

Lemma sort_nodes_perm es : sort_nodes kind es ≡ₚ es.
Proof. apply merge_sort_Permutation. Qed.

Lemma elem_of_sort_nodes e es : e ∈ sort_nodes kind es <-> e ∈ es.
Proof. by rewrite sort_nodes_perm. Qed.

(** The child lists hold the nodes that name the key as their parent. *)
Lemma add_child_elem (m : gmap Z (list Z)) e p c :
  c ∈ default [] (add_child m e !! p) ->
  c ∈ default [] (m !! p) \/ (c = id e /\ parent_id e = Some p).
Proof.
  unfold add_child. destruct (parent_id e) as [q|]; [|by left].
  destruct (decide (q = p)) as [->|Hne].
  - rewrite lookup_insert_eq. simpl.
    intros [?|Hc%list_elem_of_singleton]%elem_of_app; auto.
  - rewrite lookup_insert_ne by done. by left.
Qed.

Lemma foldl_add_child_elem (l : list Entity) (m : gmap Z (list Z)) p c :
  c ∈ default [] (foldl add_child m l !! p) ->
  c ∈ default [] (m !! p) \/ exists e, e ∈ l /\ id e = c /\ parent_id e = Some p.
Proof.
  revert m. induction l as [|e l IH]; intros m; simpl; [by left|].
  intros [[?|[-> ?]]%add_child_elem|(e' & ? & ? & ?)]%IH.
  - by left.
  - right. exists e. split_and!; [apply list_elem_of_here|done..].
  - right. exists e'. split_and!; [by apply list_elem_of_further|done..].
Qed.

Lemma children_of_elem p c :
  c ∈ default [] (children_of nodes !! p) ->
  exists e, e ∈ nodes /\ id e = c /\ parent_id e = Some p.
Proof.
  intros [H|H]%foldl_add_child_elem; [|done].
  rewrite lookup_empty in H. by apply elem_of_nil in H.
Qed.

Lemma sorted_children_elem i c :
  c ∈ sorted_children kind nodes i ->
  exists e, by_id nodes !! c = Some e /\ parent_id e = Some i.
Proof.
  unfold sorted_children. intros (e & -> & He)%list_elem_of_fmap.
  apply elem_of_sort_nodes, list_elem_of_omap in He as (c & Hc & Hl).
  apply children_of_elem in Hc as (e' & He' & <- & Hp).
  rewrite (by_id_lookup e' He') in Hl. injection Hl as <-.
  exists e'. split; [by apply by_id_lookup|done].
Qed.

Definition rootable (e : Entity) : Prop := exists k, rooted nodes k e = true.

Lemma declared_root_rootable e : declared_root nodes e = true -> rootable e.
Proof.
  intros H. exists 0%nat. unfold declared_root in H. simpl.
  destruct (parent_id e) as [p|]; [|done].
  apply bool_decide_eq_true in H. by rewrite H.
Qed.

Lemma child_rootable e c :
  by_id nodes !! id e = Some e -> parent_id c = Some (id e) ->
  rootable e -> rootable c.
Proof.
  intros He Hc [k Hk]. exists (S k). simpl. by rewrite Hc, He.
Qed.

Lemma child_not_root e c :
  by_id nodes !! id e = Some e -> parent_id c = Some (id e) ->
  declared_root nodes c = false.
Proof.
  intros He Hc. unfold declared_root. rewrite Hc.
  apply bool_decide_eq_false. by rewrite He.
Qed.

(** What a walk from the ids [roots] that took the visit state from [st]
    to [st'] and produced the trees [ts] guarantees. *)
Definition post (roots : list Z) (st st' : gmap Z Visit) (ts : list Tree) : Prop :=
  dom st ⊆ dom st' /\
  NoDup (id <$> (ts ≫= flatten)) /\
  (forall x, x ∈ id <$> (ts ≫= flatten) <-> x ∈ dom st' /\ x ∉ dom st) /\
  (forall e, e ∈ ts ≫= flatten -> by_id nodes !! id e = Some e) /\
  (forall e, e ∈ ts ≫= flatten -> id e ∈ roots \/ declared_root nodes e = false) /\
  ((forall i e, i ∈ roots -> by_id nodes !! i = Some e -> rootable e) ->
   forall e, e ∈ ts ≫= flatten -> rootable e).

Lemma post_nil i st : post [i] st st [].
Proof.
  split_and!; try done.
  - constructor.
  - intros x. simpl. split; [by intros ?%elem_of_nil | by intros [? ?]].
  - by intros e ?%elem_of_nil.
  - by intros e ?%elem_of_nil.
  - by intros _ e ?%elem_of_nil.
Qed.

Lemma post_app i rest st st1 st2 ts1 ts2 :
  post [i] st st1 ts1 -> post rest st1 st2 ts2 ->
  post (i :: rest) st st2 (ts1 ++ ts2).
Proof.
  intros (Hd1 & Hn1 & Hx1 & Hb1 & Hr1 & Hg1) (Hd2 & Hn2 & Hx2 & Hb2 & Hr2 & Hg2).
  unfold post. rewrite bind_app, fmap_app. split_and!.
  - set_solver.
  - apply NoDup_app. split_and!; [done| |done].
    intros x [? _]%Hx1 [_ ?]%Hx2. done.
  - intros x. rewrite elem_of_app, Hx1, Hx2. split.
    + intros [[? ?]|[? ?]]; split; set_solver.
    + intros [? ?]. destruct (decide (x ∈ dom st1)); [left|right]; done.
  - intros e [?|?]%elem_of_app; auto.
  - intros e [He|He]%elem_of_app.
    + destruct (Hr1 e He) as [Hi%list_elem_of_singleton|?]; [left|by right].
      rewrite Hi. apply list_elem_of_here.
    + destruct (Hr2 e He) as [?|?]; [left|by right].
      by apply list_elem_of_further.
  - intros Hroots e [He|He]%elem_of_app.
    + apply Hg1; [|done]. intros j e' Hj%list_elem_of_singleton. subst j.
      apply Hroots, list_elem_of_here.
    + apply Hg2; [|done]. intros j e' Hj. by apply Hroots, list_elem_of_further.
Qed.

Lemma post_node i e st st' ts :
  st !! i = None -> by_id nodes !! i = Some e ->
  post (sorted_children kind nodes i) (<[i := InProgress]> st) st' ts ->
  post [i] st (<[i := Done]> st') [TNode e ts].
Proof.
  intros Hi He (Hd & Hn & Hx & Hb & Hr & Hg).
  pose proof (by_id_elem i e He) as [Hin <-].
  rewrite dom_insert_L in Hd, Hx.
  assert (Hfresh : id e ∉ dom st) by by apply not_elem_of_dom.
  unfold post. rewrite bind_singleton. simpl. split_and!.
  - rewrite dom_insert_L. set_solver.
  - apply NoDup_cons. split; [|done]. intros [_ Hni]%Hx. set_solver.
  - intros x. rewrite elem_of_cons, Hx, dom_insert_L.
    split; [intros [->|[? ?]]; set_solver|].
    intros [Hx' ?]. destruct (decide (x = id e)); [by left|right]. set_solver.
  - intros e' [->|?]%elem_of_cons; auto.
  - intros e' [->|He']%elem_of_cons; [left; apply list_elem_of_here|right].
    destruct (Hr e' He') as [(c & Hc & Hp)%sorted_children_elem|?]; [|done].
    pose proof (Hb e' He') as Hbe. rewrite Hbe in Hc. injection Hc as <-.
    exact (child_not_root e e' He Hp).
  - intros Hroot e' [->|He']%elem_of_cons.
    + eapply Hroot; [apply list_elem_of_here|done].
    + apply Hg; [|done]. intros c ec (ec' & Hc & Hp)%sorted_children_elem Hec.
      rewrite Hec in Hc. injection Hc as <-.
      apply (child_rootable e ec He Hp).
      eapply Hroot; [apply list_elem_of_here|done].
Qed.

End ResolverFacts.

End HierarchyFacts.

(** * The other tables of the schema *)

Module Tables.

Import Store.

Definition Category : Table :=
  {| tablename := "categories";
     columns :=
       [ pk "id" TInt; uq "wp_id" TInt; col "name" TStr; uq "slug" TStr;
         col "description" TStr; opt "parent_id" TInt; col "count" TInt;
         col "created_at" TDateTime; col "updated_at" TDateTime ] |}.

Definition Tag : Table :=
  {| tablename := "tags";
     columns :=
       [ pk "id" TInt; uq "wp_id" TInt; col "name" TStr; uq "slug" TStr;
         col "description" TStr; col "count" TInt;
         col "created_at" TDateTime; col "updated_at" TDateTime ] |}.

Definition Menu : Table :=
  {| tablename := "menus";
     columns :=
       [ pk "id" TInt; uq "wp_id" TInt; col "name" TStr; uq "slug" TStr;
         opt "location" TStr; col "count" TInt;
         col "created_at" TDateTime; col "updated_at" TDateTime ] |}.

Definition MenuItem : Table :=
  {| tablename := "menu_items";
     columns :=
       [ pk "id" TInt; uq "wp_id" TInt; col "title" TStr; col "url" TStr;
         opt "target" TStr; col "description" TStr; col "css_classes" TJson;
         col "order" TInt; opt "parent_id" TInt; opt "object_id" TInt;
         opt "object_type" TStr; col "created_at" TDateTime;
         col "updated_at" TDateTime; col "menu_id" TInt ] |}.

Definition AppSettings : Table :=
  {| tablename := "app_settings";
     columns :=
       [ pk "id" TInt; uq "key" TStr; col "value" TStr; col "description" TStr;
         col "is_public" TBool; col "created_at" TDateTime;
         col "updated_at" TDateTime ] |}.

Definition CacheEntry : Table :=
  {| tablename := "cache_entries";
     columns :=
       [ pk "id" TInt; uq "cache_key" TStr; col "data" TJson;
         opt "expires_at" TDateTime; col "created_at" TDateTime;
         col "updated_at" TDateTime ] |}.

(** The tables that mirror a WordPress object: each has [wp_id]. *)
Definition mirrored : list Table :=
  [ User; Category; Tag; Media; Post; Page; Menu; MenuItem; CustomPostType ].

(** Every table of [models.py]. *)
Definition all : list Table :=
  mirrored ++ [ PostCategoryLink; PostTagLink; AppSettings; CacheEntry ].

(** Column [c] is a key of table [t]: after any history of writes every
    row holds a non-null value of type [ty] in [c], and no two rows hold
    the same one. *)
Definition is_key (t : Table) (c : string) (ty : ctype) : Prop :=
  forall ws,
    (forall r, r ∈ run t ws ->
       exists v, r !! c = Some v /\ v <> VNull /\ has_type false v ty = true) /\
    (forall v, (length (rows_with c v (run t ws)) <= 1)%nat).

End Tables.

Section KeyFacts.

Import Store StoreFacts Tables.

Lemma has_type_not_null v ty : has_type false v ty = true -> v <> VNull.
Proof. by destruct v. Qed.

(** A column declared [unique=True] and not [Optional] is a key. *)
Lemma unique_is_key t c ty :
  uq c ty ∈ columns t -> is_key t c ty.
Proof.
  intros Hc ws. split.
  - intros r Hr.
    pose proof (consistent_row_ok t _ r (run_consistent t ws) Hr) as Hok.
    destruct (row_ok_column t r _ Hok Hc) as (v & Hv & Hty).
    exists v. split_and!; [done| |done]. by eapply has_type_not_null.
  - intros v. apply (consistent_unique t); [|apply run_consistent].
    unfold unique_cols. apply (list_elem_of_fmap_2' cname _ (uq c ty)); [|done].
    by apply list_elem_of_filter.
Qed.

(** The only primary-key column of a table is a key. *)
Lemma single_pk_is_key t c ty :
  pk c ty ∈ columns t -> pk_cols t = [c] -> is_key t c ty.
Proof.
  intros Hc Hpk ws. split.
  - intros r Hr.
    pose proof (consistent_row_ok t _ r (run_consistent t ws) Hr) as Hok.
    destruct (row_ok_column t r _ Hok Hc) as (v & Hv & Hty).
    exists v. split_and!; [done| |done]. by eapply has_type_not_null.
  - intros v. pose proof (run_consistent t ws) as Hcons.
    unfold rows_with. induction (run t ws) as [|r rs IH]; [simpl; lia|].
    destruct Hcons as (_ & Hall & Hrs). rewrite filter_cons.
    destruct (decide (r !! c = Some v)) as [Hr|]; [|by apply IH].
    rewrite filter_none; [simpl; lia|]. rewrite Forall_forall in Hall.
    intros r' Hr' Hv. apply (clashes_pk t r r'); [by apply Hall|].
    rewrite Hpk. simpl. congruence.
Qed.

End KeyFacts.

Ltac solve_column :=
  apply list_elem_of_In; vm_compute; auto 20.

(** X1: every table that mirrors a WordPress object keeps [wp_id] as a key:
    each stored row has an integer [wp_id] and no two rows of a table
    share it. *)
Theorem wp_id_key_of_mirrored_tables :
  Forall (fun t => Tables.is_key t "wp_id" Store.TInt) Tables.mirrored.
Proof.
  unfold Tables.mirrored.
  repeat (apply Forall_cons; split; [apply unique_is_key; solve_column|]).
  apply Forall_nil_2.
Qed.

(** X2: in every table with an [id] column, [id] is the primary key: each
    stored row has an integer [id] and no two rows share it. *)
Theorem id_key_of_tables :
  Forall (fun t => Tables.is_key t "id" Store.TInt)
    (Tables.mirrored ++ [Tables.AppSettings; Tables.CacheEntry]).
Proof.
  unfold Tables.mirrored. simpl.
  repeat (apply Forall_cons; split;
          [apply single_pk_is_key; [solve_column|reflexivity]|]).
  apply Forall_nil_2.
Qed.

(** X3: [slug] is a key of the [Category], [Tag] and [Menu] tables: every
    stored row has one and no two rows of a table share it. *)
Theorem slug_key_of_taxonomies_and_menus :
  Tables.is_key Tables.Category "slug" Store.TStr /\
  Tables.is_key Tables.Tag "slug" Store.TStr /\
  Tables.is_key Tables.Menu "slug" Store.TStr.
Proof. split_and!; apply unique_is_key; solve_column. Qed.

(** X4: there is at most one cache row per [cache_key] and one setting
    per [key], after any history of writes. *)
Theorem cache_key_and_setting_key :
  Tables.is_key Tables.CacheEntry "cache_key" Store.TStr /\
  Tables.is_key Tables.AppSettings "key" Store.TStr.
Proof. split_and!; apply unique_is_key; solve_column. Qed.

Section LinkInsert.

Import Store StoreFacts.

Variable t : Table.
Variables ca cb : string.
Hypothesis pk_t : pk_cols t = [ca; cb].
Hypothesis uq_t : unique_cols t = [].
Hypothesis distinct : ca <> cb.
Hypothesis link_ok : forall a b, row_ok t (link ca cb a b) = true.





End LinkInsert.



Section SearchRequestFacts.

Import Field.


End SearchRequestFacts.


Section InsertFacts.

Import Store StoreFacts.



Lemma run_typed t ws r c :
  r ∈ run t ws -> c ∈ columns t ->
  exists v, r !! cname c = Some v /\ has_type (nullable c) v (ctype_of c) = true.
Proof.
  intros Hr Hc. apply (row_ok_column t); [|done].
  by apply (consistent_row_ok t (run t ws)); [apply run_consistent|].
Qed.

Lemma optional_int (v : value) :
  has_type true v TInt = true -> v = VNull \/ exists z, v = VInt z.
Proof. destruct v; simpl; try discriminate; eauto. Qed.

Lemma required_int (v : value) :
  has_type false v TInt = true -> exists z, v = VInt z.
Proof. destruct v; simpl; try discriminate; eauto. Qed.

End InsertFacts.

(** X7: in the three self-referential tables a stored row's [parent_id]
    is null or an integer (a root has none), and every stored menu item
    names the menu it belongs to: [menu_id] is never null. *)
Theorem parent_optional_menu_required :
  Forall
    (fun t => forall ws r, r ∈ Store.run t ws ->
       r !! "parent_id" = Some Store.VNull \/
       exists p, r !! "parent_id" = Some (Store.VInt p))
    [Tables.Category; Store.Page; Tables.MenuItem] /\
  (forall ws r, r ∈ Store.run Tables.MenuItem ws ->
     exists m, r !! "menu_id" = Some (Store.VInt m)).
Proof.
  split.
  - repeat (apply Forall_cons; split;
      [intros ws r Hr;
       destruct (run_typed _ ws r (Store.opt "parent_id" Store.TInt) Hr)
         as (v & Hv & [->|[p ->]]%optional_int); [solve_column|by left|right; eauto]|]).
    apply Forall_nil_2.
  - intros ws r Hr.
    destruct (run_typed _ ws r (Store.col "menu_id" Store.TInt) Hr)
      as (v & Hv & [m ->]%required_int); [solve_column|eauto].
Qed.


